(** * Kepler's-equation solver [keplersLaw]: embedding and verification

    The repository's only numerical routine is

<<
    export const keplersLaw = (M: number, e: number, iterations = 6) => {
      let E = M;
      for (let i = 0; i < iterations; i++) {
        E = E - (E - e * Math.sin(E) - M) / (1 - e * Math.cos(E));
      }
      return E;
    };
>>

    It is embedded below as a Rocq function over an idealised model of
    the JavaScript [number] type: finite values are real numbers with
    exact arithmetic (no rounding, no overflow), and the three special
    values [Infinity], [-Infinity] and [NaN] follow the IEEE-754 rules
    that JavaScript uses.  The iteration count, a [number] in the source,
    is taken to be an integer; the optional third parameter is an
    [option], [None] standing for the omitted argument. *)

From Stdlib Require Import Reals ZArith Lra Lia.
From Stdlib Require Import List String.
Import ListNotations.
From Equations Require Import Equations.

Local Open Scope R_scope.

(** ** The [number] type

    What the model leaves out: on finite operands [-], [*], [/] and [+]
    are the exact operations of the reals, and [Math.sin], [Math.cos] the
    exact functions, where the source's doubles round every result, can
    absorb a small operand, and overflow or underflow.  Statements below
    that would not survive rounding carry a margin and a bound on the
    operands. *)

Inductive number : Type :=
| Finite (r : R)
| PosInfinity
| NegInfinity
| NaN.

Declare Scope num_scope.
Delimit Scope num_scope with num.
Bind Scope num_scope with number.

Definition is_finite (x : number) : bool :=
  match x with
  | Finite _ => true
  | _ => false
  end.

(** [infinity_of b] is [Infinity] when [b] holds and [-Infinity] otherwise. *)
Definition infinity_of (positive : bool) : number :=
  if positive then PosInfinity else NegInfinity.

(** Sign test used where IEEE-754 looks at the sign bit.  Zeros carry no
    sign in this model and count as [+0]: the only divisor of the program
    is a difference [1 - t], and a difference that is zero is [+0] under
    round-to-nearest. *)
Definition nonneg (r : R) : bool :=
  if Rle_dec 0 r then true else false.

(** [a - b] *)
Definition num_sub (a b : number) : number :=
  match a, b with
  | NaN, _ | _, NaN => NaN
  | Finite x, Finite y => Finite (x - y)
  | Finite _, PosInfinity => NegInfinity
  | Finite _, NegInfinity => PosInfinity
  | PosInfinity, PosInfinity => NaN
  | PosInfinity, _ => PosInfinity
  | NegInfinity, NegInfinity => NaN
  | NegInfinity, _ => NegInfinity
  end.

(** [a * b] *)
Definition num_mul (a b : number) : number :=
  match a, b with
  | NaN, _ | _, NaN => NaN
  | Finite x, Finite y => Finite (x * y)
  | Finite x, PosInfinity | PosInfinity, Finite x =>
      if Req_dec_T x 0 then NaN else infinity_of (nonneg x)
  | Finite x, NegInfinity | NegInfinity, Finite x =>
      if Req_dec_T x 0 then NaN else infinity_of (negb (nonneg x))
  | PosInfinity, PosInfinity | NegInfinity, NegInfinity => PosInfinity
  | PosInfinity, NegInfinity | NegInfinity, PosInfinity => NegInfinity
  end.

(** [a / b]: division by zero does not raise in JavaScript; it yields an
    infinity, or [NaN] for [0 / 0]. *)
Definition num_div (a b : number) : number :=
  match a, b with
  | NaN, _ | _, NaN => NaN
  | Finite x, Finite y =>
      if Req_dec_T y 0
      then (if Req_dec_T x 0 then NaN else infinity_of (nonneg x))
      else Finite (x / y)
  | Finite _, (PosInfinity | NegInfinity) => Finite 0
  | PosInfinity, Finite y => infinity_of (nonneg y)
  | NegInfinity, Finite y => infinity_of (negb (nonneg y))
  | (PosInfinity | NegInfinity), (PosInfinity | NegInfinity) => NaN
  end.

(** [Math.sin] and [Math.cos] return [NaN] at the infinities and at [NaN]. *)
Definition Math_sin (x : number) : number :=
  match x with
  | Finite r => Finite (sin r)
  | _ => NaN
  end.

Definition Math_cos (x : number) : number :=
  match x with
  | Finite r => Finite (cos r)
  | _ => NaN
  end.

Infix "-" := num_sub : num_scope.
Infix "*" := num_mul : num_scope.
Infix "/" := num_div : num_scope.

(** ** The solver *)

(** The divisor of the update, [1 - e * Math.cos(E)]. *)
Definition divisor (e E : number) : number :=
  (Finite 1 - e * Math_cos E)%num.

(** The assignment in the loop body:
    [E = E - (E - e * Math.sin(E) - M) / (1 - e * Math.cos(E))]. *)
Definition loop_body (M e E : number) : number :=
  (E - (E - e * Math_sin E - M) / divisor e E)%num.

(** [for (let i = 0; i < iterations; i++) { E = ... }], as a function of
    the two local variables [i] and [E]; it returns the final [E]. *)
Equations? for_loop (M e : number) (iterations : Z) (i : Z) (E : number)
  : number by wf (Z.to_nat (iterations - i)) lt :=
  for_loop M e iterations i E with Z_lt_dec i iterations => {
    | left _ := for_loop M e iterations (i + 1) (loop_body M e E);
    | right _ := E }.
Proof. lia. Qed.

(** The default parameter value [iterations = 6]. *)
Definition default_iterations : Z := 6.

(** [keplersLaw(M, e, iterations)]; [None] is the call that omits the
    third argument. *)
Definition keplersLaw (M e : number) (iterations : option Z) : number :=
  let iterations :=
    match iterations with
    | Some n => n
    | None => default_iterations
    end in
  let E := M in
  for_loop M e iterations 0 E.

(** The eccentricities of closed ellipses, [0 <= e < 1]. *)
Definition elliptic (ev : R) : Prop := 0 <= ev < 1.

(** ** What a call can do

    A JavaScript call either returns a value or throws.  The two error
    names are the ones of the specification's taxonomy; the source has no
    [throw] statement, and none of the operations it uses ([-], [*], [/],
    [<], [++], [Math.sin], [Math.cos] on numbers) can throw. *)

Inductive error : Type :=
| DomainError
| InvalidInput.

Inductive completion : Type :=
| Returns (v : number)
| Throws (err : error).

(** A call of [keplersLaw]: the body runs to its [return E]. *)
Definition keplersLaw_call (M e : number) (iterations : option Z)
  : completion :=
  Returns (keplersLaw M e iterations).

(** The number of times the body runs. *)
Definition iteration_count (iterations : option Z) : nat :=
  match iterations with
  | Some n => Z.to_nat n
  | None => Z.to_nat default_iterations
  end.

(** The valid eccentricities, as a property of a [number]. *)
Definition in_domain (e : number) : Prop :=
  match e with
  | Finite ev => elliptic ev
  | _ => False
  end.

(** ** The states the loop goes through

    [loop_reaches M e iterations i E]: the loop test is evaluated with
    the local variables holding [i] and [E]. *)
Inductive loop_reaches (M e : number) (iterations : Z)
  : Z -> number -> Prop :=
| reaches_init : loop_reaches M e iterations 0 M
| reaches_step i E :
    loop_reaches M e iterations i E ->
    (i < iterations)%Z ->
    loop_reaches M e iterations (i + 1) (loop_body M e E).

(** ** The Newton-Raphson sequence, from the specification's words

    [E_0 = M] and
    [E_(k+1) = E_k - (E_k - e*sin(E_k) - M) / (1 - e*cos(E_k))]. *)
Fixpoint newton_seq (M e : number) (k : nat) : number :=
  match k with
  | O => M
  | S k' =>
      let Ek := newton_seq M e k' in
      (Ek - (Ek - e * Math_sin Ek - M) / (Finite 1 - e * Math_cos Ek))%num
  end.

(** The same update on real numbers, where the divisor does not vanish. *)
Definition real_update (m ev x : R) : R :=
  x - (x - ev * sin x - m) / (1 - ev * cos x).

Fixpoint real_newton_seq (m ev : R) (k : nat) : R :=
  match k with
  | O => m
  | S k' => real_update m ev (real_newton_seq m ev k')
  end.





(** The residual of Kepler's equation at [x], [x - e*sin(x) - M]. *)
Definition residual (m ev x : R) : R := x - ev * sin x - m.


(** ** Further operations on numbers *)


(** [a + b] *)
Definition num_add (a b : number) : number :=
  match a, b with
  | NaN, _ | _, NaN => NaN
  | Finite x, Finite y => Finite (x + y)
  | PosInfinity, NegInfinity | NegInfinity, PosInfinity => NaN
  | PosInfinity, _ | _, PosInfinity => PosInfinity
  | NegInfinity, _ | _, NegInfinity => NegInfinity
  end.

Infix "+" := num_add : num_scope.

(** ** The scene of [frontend/app/page.tsx]

    The components [Sun] and [Planet] register a callback that runs once
    per rendered frame and mutates the component's mesh:

<<
    // Sun
    useFrame(() => { ref.current.rotation.y += 0.0005; });

    // Planet
    useFrame(({ clock }) => {
      const t = clock.elapsedTime * speed;
      ref.current.position.set(Math.cos(t) * distance, 0, Math.sin(t) * distance);
      ref.current.rotation.y += 0.002;
    });
>>

    [Orbit] draws a ring with [args={[radius - 0.02, radius + 0.02, 256]}],
    and [SolarSystemScene] lists eight [Orbit] and eight [Planet]
    elements.  The callbacks are embedded as functions from the mesh
    before the frame to the mesh after it. *)

Module Vector3.
Record t : Type := mk { x : number; y : number; z : number }.
End Vector3.

Module Euler.
Record t : Type := mk { x : number; y : number; z : number }.
End Euler.

(** The part of a [THREE.Mesh] that the frame callbacks touch. *)
Record Mesh : Type := {
  position : Vector3.t;
  rotation : Euler.t
}.

(** A mesh as it is created: at the origin, not rotated. *)
Definition new_Mesh : Mesh :=
  {| position := Vector3.mk (Finite 0) (Finite 0) (Finite 0);
     rotation := Euler.mk (Finite 0) (Finite 0) (Finite 0) |}.

(** [rotation.y += delta] *)
Definition rotate_y (delta : number) (mesh : Mesh) : Mesh :=
  {| position := position mesh;
     rotation := Euler.mk (Euler.x (rotation mesh))
                   (Euler.y (rotation mesh) + delta)%num
                   (Euler.z (rotation mesh)) |}.

(** [position.set(px, py, pz)] *)
Definition set_position (px py pz : number) (mesh : Mesh) : Mesh :=
  {| position := Vector3.mk px py pz; rotation := rotation mesh |}.

(** The [useFrame] callback of [Sun]. *)
Definition Sun_frame (mesh : Mesh) : Mesh :=
  rotate_y (Finite (5 / 10000)) mesh.

(** The radius of the Sun's sphere, [args={[2, 128, 128]}]. *)
Definition Sun_radius : number := Finite 2.

(** The [useFrame] callback of [Planet], for the clock's [elapsedTime]. *)
Definition Planet_frame (distance speed elapsedTime : number) (mesh : Mesh)
  : Mesh :=
  let t := (elapsedTime * speed)%num in
  let mesh :=
    set_position (Math_cos t * distance)%num (Finite 0)
      (Math_sin t * distance)%num mesh in
  rotate_y (Finite (2 / 1000)) mesh.

(** The callback run once per rendered frame, at the given clock times. *)
Definition Planet_frames (distance speed : number) (times : list number)
  (mesh : Mesh) : Mesh :=
  fold_left (fun m elapsedTime => Planet_frame distance speed elapsedTime m)
    times mesh.

Record RingGeometry : Type := {
  innerRadius : number;
  outerRadius : number;
  thetaSegments : Z
}.

(** The [ringGeometry] of [Orbit]. *)
Definition Orbit_ringGeometry (radius : number) : RingGeometry :=
  {| innerRadius := (radius - Finite (2 / 100))%num;
     outerRadius := (radius + Finite (2 / 100))%num;
     thetaSegments := 256 |}.

(** The props of a [Planet] element; [None] is an omitted
    [emissiveIntensity], for which the component takes 0.5. *)
Record PlanetProps : Type := {
  radius : number;
  distance : number;
  speed : number;
  texture : string;
  emissiveIntensity : option number
}.

(** The [Orbit] elements of [SolarSystemScene], by radius. *)
Definition SolarSystemScene_orbits : list number :=
  [Finite 4; Finite 6; Finite 8; Finite 10;
   Finite 14; Finite 18; Finite 22; Finite 26].

(** The [Planet] elements of [SolarSystemScene], named as the comments
    of the source name them. *)
Definition Mercury : PlanetProps :=
  {| radius := Finite (4 / 10); distance := Finite 4;
     speed := Finite (16 / 10); texture := "/textures/mercury.jpg";
     emissiveIntensity := None |}.

Definition Venus : PlanetProps :=
  {| radius := Finite (6 / 10); distance := Finite 6;
     speed := Finite (12 / 10); texture := "/textures/venus.jpg";
     emissiveIntensity := None |}.

Definition Earth : PlanetProps :=
  {| radius := Finite (65 / 100); distance := Finite 8;
     speed := Finite 1; texture := "/textures/earth.jpg";
     emissiveIntensity := None |}.

Definition Mars : PlanetProps :=
  {| radius := Finite (5 / 10); distance := Finite 10;
     speed := Finite (8 / 10); texture := "/textures/mars.jpg";
     emissiveIntensity := Some (Finite (6 / 10)) |}.

Definition Jupiter : PlanetProps :=
  {| radius := Finite (12 / 10); distance := Finite 14;
     speed := Finite (4 / 10); texture := "/textures/jupyter.jpg";
     emissiveIntensity := None |}.

Definition Saturn : PlanetProps :=
  {| radius := Finite 1; distance := Finite 18;
     speed := Finite (3 / 10); texture := "/textures/saturn.jpg";
     emissiveIntensity := None |}.

Definition Uranus : PlanetProps :=
  {| radius := Finite (9 / 10); distance := Finite 22;
     speed := Finite (2 / 10); texture := "/textures/uranus.jpg";
     emissiveIntensity := None |}.

Definition Neptune : PlanetProps :=
  {| radius := Finite (85 / 100); distance := Finite 26;
     speed := Finite (15 / 100); texture := "/textures/neptune.jpg";
     emissiveIntensity := None |}.

Definition SolarSystemScene_planets : list PlanetProps :=
  [Mercury; Venus; Earth; Mars; Jupiter; Saturn; Uranus; Neptune].

(** [Orbit] rotates its ring by [Math.PI / 2] about the X axis, which lays
    it flat on the XZ plane.  A point lies over such a ring when its
    distance from the vertical axis is between the two radii. *)
Definition over_ring (g : RingGeometry) (p : Vector3.t) : Prop :=
  match innerRadius g, outerRadius g, Vector3.x p, Vector3.z p with
  | Finite ri, Finite ro, Finite px, Finite pz =>
      0 <= ri /\ ri * ri <= px * px + pz * pz <= ro * ro
  | _, _, _, _ => False
  end.

(** Two spheres, given by centre and radius, have no point in common. *)
Definition spheres_apart (c1 : Vector3.t) (r1 : number)
  (c2 : Vector3.t) (r2 : number) : Prop :=
  match Vector3.x c1, Vector3.y c1, Vector3.z c1, r1,
        Vector3.x c2, Vector3.y c2, Vector3.z c2, r2 with
  | Finite x1, Finite y1, Finite z1, Finite s1,
    Finite x2, Finite y2, Finite z2, Finite s2 =>
      0 <= s1 /\ 0 <= s2
      /\ (s1 + s2) * (s1 + s2)
         < (x1 - x2) * (x1 - x2) + (y1 - y2) * (y1 - y2)
           + (z1 - z2) * (z1 - z2)
  | _, _, _, _, _, _, _, _ => False
  end.

(** The centre of the Sun's mesh: it is given no position and its
    callback never moves it. *)
Definition origin : Vector3.t := Vector3.mk (Finite 0) (Finite 0) (Finite 0).

(** ** Auxiliary functions on the reals *)

(** [t |-> sin (x + t) - sin x - t * cos x + s * t^2 / 2] and its
    derivative. *)
Definition sin_remainder (x s : R) : R -> R :=
  (comp sin (fct_cte x + id) - fct_cte (sin x) - mult_real_fct (cos x) id
   + mult_real_fct (s / 2) (id * id))%F.

(** * Properties *)

(** ** Unfolding the loop *)

Lemma for_loop_enter M e iterations i E :
  (i < iterations)%Z ->
  for_loop M e iterations i E
  = for_loop M e iterations (i + 1) (loop_body M e E).
Proof.
  intros Hlt. rewrite for_loop_equation_1.
  destruct (Z_lt_dec i iterations) as [Hlt' | Hge]; [reflexivity | lia].
Qed.

Lemma for_loop_exit M e iterations i E :
  (iterations <= i)%Z ->
  for_loop M e iterations i E = E.
Proof.
  intros Hge. rewrite for_loop_equation_1.
  destruct (Z_lt_dec i iterations) as [Hlt | Hge']; [lia | reflexivity].
Qed.

(** The loop applies its body once per value of the counter. *)
Lemma for_loop_iter M e iterations :
  forall (k : nat) (i : Z) (E : number),
    Z.to_nat (iterations - i) = k ->
    for_loop M e iterations i E = Nat.iter k (loop_body M e) E.
Proof.
  induction k as [| k IH]; intros i E Hk.
  - apply for_loop_exit. lia.
  - rewrite for_loop_enter by lia.
    rewrite (IH (i + 1)%Z) by lia.
    symmetry. apply Nat.iter_succ_r.
Qed.

Lemma newton_seq_iter M e k :
  newton_seq M e k = Nat.iter k (loop_body M e) M.
Proof.
  induction k as [| k IH]; [reflexivity |].
  cbn [newton_seq Nat.iter nat_rect]. rewrite IH. reflexivity.
Qed.

Lemma keplersLaw_newton_seq M e (n : Z) :
  keplersLaw M e (Some n) = newton_seq M e (Z.to_nat n).
Proof.
  unfold keplersLaw. rewrite newton_seq_iter.
  apply for_loop_iter. f_equal. lia.
Qed.

(** Every state the loop reaches leads to the value the call returns. *)
Lemma loop_reaches_result M e iterations i E :
  loop_reaches M e iterations i E ->
  for_loop M e iterations i E = for_loop M e iterations 0 M.
Proof.
  induction 1 as [| i E _ IH Hlt]; [reflexivity |].
  rewrite <- IH. symmetry. apply for_loop_enter. exact Hlt.
Qed.

(** The [k]-th term of the sequence is reached whenever [k] iterations
    are allowed. *)
Lemma loop_reaches_newton_seq M e iterations (k : nat) :
  (Z.of_nat k <= iterations)%Z ->
  loop_reaches M e iterations (Z.of_nat k) (newton_seq M e k).
Proof.
  induction k as [| k IH]; intros Hk.
  - apply reaches_init.
  - replace (Z.of_nat (S k)) with (Z.of_nat k + 1)%Z by lia.
    apply (reaches_step M e iterations (Z.of_nat k) (newton_seq M e k)).
    + apply IH. lia.
    + lia.
Qed.

Lemma loop_reaches_inv M e iterations i E :
  loop_reaches M e iterations i E ->
  (0 <= i)%Z /\ E = newton_seq M e (Z.to_nat i).
Proof.
  induction 1 as [| i E _ [Hi IH] Hlt].
  - split; [lia | reflexivity].
  - split; [lia |].
    replace (Z.to_nat (i + 1)) with (S (Z.to_nat i)) by lia.
    cbn [newton_seq]. rewrite <- IH. reflexivity.
Qed.

Lemma loop_reaches_bound M e iterations i E :
  loop_reaches M e iterations i E ->
  (0 <= iterations)%Z -> (i <= iterations)%Z.
Proof. induction 1; lia. Qed.

(** ** Arithmetic on finite numbers *)

Lemma elliptic_divisor ev x :
  elliptic ev -> 1 - ev <= 1 - ev * cos x /\ 0 < 1 - ev.
Proof.
  intros [H0 H1]. pose proof (COS_bound x) as [_ Hc].
  split; [nra | lra].
Qed.

Lemma divisor_finite ev x :
  divisor (Finite ev) (Finite x) = Finite (1 - ev * cos x).
Proof. reflexivity. Qed.

Lemma loop_body_finite m ev x :
  1 - ev * cos x <> 0 ->
  loop_body (Finite m) (Finite ev) (Finite x) = Finite (real_update m ev x).
Proof.
  intros Hd. unfold loop_body, divisor, real_update. cbn.
  destruct (Req_dec_T (1 - ev * cos x) 0) as [Hz | _]; [contradiction |].
  reflexivity.
Qed.

Lemma loop_body_elliptic m ev x :
  elliptic ev ->
  loop_body (Finite m) (Finite ev) (Finite x) = Finite (real_update m ev x).
Proof.
  intros He. apply loop_body_finite.
  pose proof (elliptic_divisor ev x He). lra.
Qed.

(** A number that is not finite stays out of the finite numbers: the
    update turns it into [NaN]. *)
Lemma loop_body_not_finite M e E :
  is_finite E = false -> loop_body M e E = NaN.
Proof.
  unfold loop_body, divisor.
  destruct E as [x | | |]; intros HE; try discriminate HE;
    destruct e as [ev | | |]; destruct M as [m | | |]; reflexivity.
Qed.

Lemma iter_fixed_point (f : number -> number) (x : number) (k : nat) :
  f x = x -> Nat.iter k f x = x.
Proof.
  intros Hf. induction k as [| k IH]; [reflexivity |].
  cbn [Nat.iter nat_rect]. fold (Nat.iter k f x). rewrite IH. exact Hf.
Qed.

(** On the elliptic domain the iterates are the real Newton-Raphson
    sequence. *)
Lemma newton_seq_real m ev (k : nat) :
  elliptic ev ->
  newton_seq (Finite m) (Finite ev) k = Finite (real_newton_seq m ev k).
Proof.
  intros He. induction k as [| k IH]; [reflexivity |].
  cbn [newton_seq real_newton_seq]. rewrite IH.
  apply (loop_body_elliptic m ev _ He).
Qed.


(** ** The solver is the specification's Newton-Raphson iteration *)

(** C1. For all [M] and [e] (in particular all reals) and every integer
    [n >= 1], [keplersLaw(M, e, n)] is the term [E_n] of the sequence
    [E_0 = M], [E_(k+1) = E_k - (E_k - e*sin(E_k) - M)/(1 - e*cos(E_k))]:
    the update is applied exactly [n] times, the loop passes through
    [E_0 .. E_n] in this order, and a call without the third argument
    returns [E_6]. *)
Theorem keplersLaw_newton_raphson (M e : number) (n : Z) :
  (1 <= n)%Z ->
  keplersLaw M e (Some n) = newton_seq M e (Z.to_nat n)
  /\ (forall k : nat, (Z.of_nat k <= n)%Z ->
        loop_reaches M e n (Z.of_nat k) (newton_seq M e k))
  /\ (forall i E, loop_reaches M e n i E ->
        (0 <= i <= n)%Z /\ E = newton_seq M e (Z.to_nat i))
  /\ keplersLaw M e None = newton_seq M e 6.
Proof.
  intros Hn. split; [| split; [| split]].
  - apply keplersLaw_newton_seq.
  - intros k Hk. apply loop_reaches_newton_seq, Hk.
  - intros i E HR. pose proof (loop_reaches_inv _ _ _ _ _ HR) as [Hi HE].
    split; [split; [exact Hi |] | exact HE].
    apply (loop_reaches_bound _ _ _ _ _ HR). lia.
  - exact (keplersLaw_newton_seq M e 6).
Qed.

Lemma keplersLaw_newton_raphson_witness :
  keplersLaw (Finite 1) (Finite (1 / 10)) (Some 6%Z)
  = newton_seq (Finite 1) (Finite (1 / 10)) 6.
Proof.
  apply (keplersLaw_newton_raphson (Finite 1) (Finite (1 / 10)) 6).
  lia.
Defined.

(** ** Zero or negative iteration counts *)

Lemma keplersLaw_skips_loop M e (n : Z) :
  (n <= 0)%Z -> keplersLaw M e (Some n) = M.
Proof.
  intros Hn. unfold keplersLaw. apply for_loop_exit. exact Hn.
Qed.

(** C10. With an iteration count of 0 or below the loop body never runs
    and the initial guess [M] is returned unchanged, for every [M] and
    [e]. *)
Theorem keplersLaw_no_iteration (M e : number) (n : Z) :
  (n <= 0)%Z -> keplersLaw M e (Some n) = M.
Proof. apply keplersLaw_skips_loop. Qed.

Lemma keplersLaw_no_iteration_witness :
  keplersLaw (Finite 2) (Finite (9 / 10)) (Some (-3)%Z) = Finite 2
  /\ keplersLaw NaN PosInfinity (Some 0%Z) = NaN.
Proof.
  split.
  - apply (keplersLaw_no_iteration (Finite 2) (Finite (9 / 10)) (-3)). lia.
  - apply (keplersLaw_no_iteration NaN PosInfinity 0). lia.
Defined.

(** ** Circular orbits *)

Lemma loop_body_circular m :
  loop_body (Finite m) (Finite 0) (Finite m) = Finite m.
Proof.
  rewrite loop_body_finite by lra.
  unfold real_update. f_equal. field; lra.
Qed.

Lemma keplersLaw_zero_eccentricity m (n : Z) :
  keplersLaw (Finite m) (Finite 0) (Some n) = Finite m.
Proof.
  rewrite keplersLaw_newton_seq, newton_seq_iter.
  apply iter_fixed_point, loop_body_circular.
Qed.

(** C4. With eccentricity [e = 0] the solver returns exactly [M], for
    every real [M] and every iteration count [n >= 1]. *)
Theorem keplersLaw_circular (m : R) (n : Z) :
  (1 <= n)%Z -> keplersLaw (Finite m) (Finite 0) (Some n) = Finite m.
Proof.
  intros _. apply keplersLaw_zero_eccentricity.
Qed.

Lemma keplersLaw_circular_witness :
  keplersLaw (Finite 2) (Finite 0) (Some 6%Z) = Finite 2.
Proof. apply (keplersLaw_circular 2 6). lia. Defined.

(** ** The fixed point at the origin *)

Lemma loop_body_origin ev :
  ev <> 1 -> loop_body (Finite 0) (Finite ev) (Finite 0) = Finite 0.
Proof.
  intros He. rewrite loop_body_finite by (rewrite cos_0; lra).
  unfold real_update. rewrite sin_0, cos_0. f_equal. field; lra.
Qed.

(** C6. [keplersLaw(0, 0.5, n)] is exactly 0 for every [n >= 1], and
    every value the loop variable [E] takes on the way is 0. *)
Theorem keplersLaw_origin (n : Z) :
  (1 <= n)%Z ->
  keplersLaw (Finite 0) (Finite (1 / 2)) (Some n) = Finite 0
  /\ forall i E, loop_reaches (Finite 0) (Finite (1 / 2)) n i E ->
       E = Finite 0.
Proof.
  intros _.
  assert (Hfix : forall k : nat,
             newton_seq (Finite 0) (Finite (1 / 2)) k = Finite 0).
  { intros k. rewrite newton_seq_iter.
    apply iter_fixed_point, loop_body_origin. lra. }
  split.
  - rewrite keplersLaw_newton_seq. apply Hfix.
  - intros i E HR. apply loop_reaches_inv in HR as [_ ->]. apply Hfix.
Qed.

Lemma keplersLaw_origin_witness :
  keplersLaw (Finite 0) (Finite (1 / 2)) (Some 6%Z) = Finite 0.
Proof. apply (keplersLaw_origin 6). lia. Defined.

(** ** The divisor on the elliptic domain *)

(** C5. For [0 <= e < 1] and real [M], every value [E] the loop variable
    takes is a finite number, and the divisor [1 - e*cos(E)] evaluated at
    it is a real [d] with [d >= 1 - e > 0]; dividing by it is an ordinary
    division of reals, never a division by zero. *)
Theorem divisor_positive (m ev : R) (iterations i : Z) (E : number) :
  elliptic ev ->
  loop_reaches (Finite m) (Finite ev) iterations i E ->
  exists x d : R,
    E = Finite x
    /\ divisor (Finite ev) E = Finite d
    /\ d = 1 - ev * cos x
    /\ 1 - ev <= d
    /\ 0 < 1 - ev
    /\ forall a : R, (Finite a / divisor (Finite ev) E)%num = Finite (a / d).
Proof.
  intros He HR.
  apply loop_reaches_inv in HR as [_ ->].
  rewrite (newton_seq_real m ev _ He).
  set (x := real_newton_seq m ev (Z.to_nat i)).
  destruct (elliptic_divisor ev x He) as [Hd Hpos].
  exists x, (1 - ev * cos x).
  repeat split; try assumption.
  intros a. rewrite divisor_finite. cbn.
  destruct (Req_dec_T (1 - ev * cos x) 0) as [Hz | _]; [lra | reflexivity].
Qed.

Lemma divisor_positive_witness :
  exists x d : R,
    loop_body (Finite 1) (Finite (1 / 2)) (Finite 1) = Finite x
    /\ divisor (Finite (1 / 2)) (loop_body (Finite 1) (Finite (1 / 2)) (Finite 1))
       = Finite d
    /\ d = 1 - 1 / 2 * cos x
    /\ 1 - 1 / 2 <= d
    /\ 0 < 1 - 1 / 2
    /\ forall a : R,
        (Finite a
         / divisor (Finite (1 / 2))
             (loop_body (Finite 1) (Finite (1 / 2)) (Finite 1)))%num
        = Finite (a / d).
Proof.
  apply (divisor_positive 1 (1 / 2) 6 (0 + 1)
           (loop_body (Finite 1) (Finite (1 / 2)) (Finite 1))).
  - unfold elliptic. lra.
  - apply reaches_step; [apply reaches_init | lia].
Defined.

(** ** No validation, no exception *)

Lemma keplersLaw_count M e iterations :
  keplersLaw M e iterations = newton_seq M e (iteration_count iterations).
Proof.
  destruct iterations as [n |]; apply keplersLaw_newton_seq.
Qed.

Lemma newton_seq_not_finite M e (k : nat) :
  is_finite M = false -> newton_seq M e (S k) = NaN.
Proof.
  intros HM. induction k as [| k IH].
  - apply (loop_body_not_finite M e M HM).
  - change (newton_seq M e (S (S k)))
      with (loop_body M e (newton_seq M e (S k))).
    rewrite IH. apply loop_body_not_finite. reflexivity.
Qed.

Lemma loop_body_zero_divisor :
  loop_body (Finite 0) (Finite 1) (Finite 0) = NaN.
Proof.
  unfold loop_body, divisor. cbn. rewrite sin_0, cos_0.
  destruct (Req_dec_T (1 - 1 * 1) 0) as [_ | Hn]; [| lra].
  destruct (Req_dec_T (0 - 1 * 0 - 0) 0) as [_ | Hn]; [| lra].
  reflexivity.
Qed.

Lemma newton_seq_zero_divisor (k : nat) :
  newton_seq (Finite 0) (Finite 1) (S k) = NaN.
Proof.
  induction k as [| k IH].
  - apply loop_body_zero_divisor.
  - change (newton_seq (Finite 0) (Finite 1) (S (S k)))
      with (loop_body (Finite 0) (Finite 1)
              (newton_seq (Finite 0) (Finite 1) (S k))).
    rewrite IH. apply loop_body_not_finite. reflexivity.
Qed.

(** C9. The solver validates nothing and never throws: for all [M], [e]
    and iteration arguments (eccentricities at or above 1 or below 0 and
    non-finite [M] included) the call runs the loop and returns the
    resulting term of the sequence.  For [e = 1], [M = 0] the divisor of
    the first iteration is exactly 0; the division yields [NaN], which
    the call returns. *)
Theorem keplersLaw_never_throws :
  (forall (M e : number) (iterations : option Z),
      keplersLaw_call M e iterations
      = Returns (newton_seq M e (iteration_count iterations))
      /\ forall err : error, keplersLaw_call M e iterations <> Throws err)
  /\ divisor (Finite 1) (Finite 0) = Finite 0
  /\ loop_body (Finite 0) (Finite 1) (Finite 0) = NaN
  /\ keplersLaw_call (Finite 0) (Finite 1) None = Returns NaN.
Proof.
  split; [| split; [| split]].
  - intros M e iterations. unfold keplersLaw_call.
    rewrite keplersLaw_count. split; [reflexivity | discriminate].
  - rewrite divisor_finite, cos_0. f_equal. lra.
  - apply loop_body_zero_divisor.
  - unfold keplersLaw_call. rewrite keplersLaw_count.
    f_equal. apply (newton_seq_zero_divisor 5).
Qed.

(** C3, as the specification words it, fails: with [e = 1.0] the call
    [keplersLaw(0, 1.0, 6)] raises no [DomainError] but returns [NaN];
    with [e = -0.1] the call [keplersLaw(0, -0.1, 6)] returns 0; and
    [keplersLaw(NaN, 0.5, 6)] raises no [InvalidInput] but returns
    [NaN]. *)
Lemma keplersLaw_rejects_nothing :
  (~ in_domain (Finite 1)
   /\ keplersLaw_call (Finite 0) (Finite 1) (Some 6%Z) = Returns NaN
   /\ keplersLaw_call (Finite 0) (Finite 1) (Some 6%Z) <> Throws DomainError)
  /\ (~ in_domain (Finite (- (1 / 10)))
      /\ keplersLaw_call (Finite 0) (Finite (- (1 / 10))) (Some 6%Z)
         = Returns (Finite 0)
      /\ keplersLaw_call (Finite 0) (Finite (- (1 / 10))) (Some 6%Z)
         <> Throws DomainError)
  /\ (is_finite NaN = false
      /\ keplersLaw_call NaN (Finite (1 / 2)) (Some 6%Z) = Returns NaN
      /\ keplersLaw_call NaN (Finite (1 / 2)) (Some 6%Z)
         <> Throws InvalidInput).
Proof.
  split; [| split].
  - split; [| split].
    + unfold in_domain, elliptic. lra.
    + unfold keplersLaw_call. rewrite keplersLaw_count.
      f_equal. apply (newton_seq_zero_divisor 5).
    + discriminate.
  - split; [| split].
    + unfold in_domain, elliptic. lra.
    + unfold keplersLaw_call.
      rewrite keplersLaw_count, newton_seq_iter. f_equal.
      apply iter_fixed_point, loop_body_origin. lra.
    + discriminate.
  - split; [| split].
    + reflexivity.
    + unfold keplersLaw_call. rewrite keplersLaw_count.
      change (iteration_count (Some 6%Z)) with 6%nat.
      rewrite newton_seq_not_finite by reflexivity. reflexivity.
    + discriminate.
Qed.

(** C3, amended.  For an eccentricity outside [0, 1) or a non-finite [M]
    the call raises nothing: it returns the term of the Newton-Raphson
    sequence computed with the arguments as given (the eccentricity is
    not clamped), and when [M] is not finite and the body runs at least
    once that value is [NaN]. *)
Theorem keplersLaw_out_of_domain (M e : number) (iterations : option Z) :
  ~ in_domain e \/ is_finite M = false ->
  keplersLaw_call M e iterations
  = Returns (newton_seq M e (iteration_count iterations))
  /\ (forall err : error, keplersLaw_call M e iterations <> Throws err)
  /\ (is_finite M = false ->
      (1 <= iteration_count iterations)%nat ->
      keplersLaw_call M e iterations = Returns NaN).
Proof.
  intros _. unfold keplersLaw_call. rewrite keplersLaw_count.
  split; [reflexivity | split; [discriminate |]].
  intros HM Hk. f_equal.
  destruct (iteration_count iterations) as [| k]; [lia |].
  apply newton_seq_not_finite, HM.
Qed.

Lemma keplersLaw_out_of_domain_witness :
  keplersLaw_call PosInfinity (Finite 2) (Some 3%Z)
  = Returns (newton_seq PosInfinity (Finite 2) 3)
  /\ (forall err : error,
         keplersLaw_call PosInfinity (Finite 2) (Some 3%Z) <> Throws err)
  /\ (is_finite PosInfinity = false ->
      (1 <= 3)%nat ->
      keplersLaw_call PosInfinity (Finite 2) (Some 3%Z) = Returns NaN).
Proof.
  apply (keplersLaw_out_of_domain PosInfinity (Finite 2) (Some 3%Z)).
  left. unfold in_domain, elliptic. lra.
Defined.

(** ** Monotonicity in the mean anomaly *)











Lemma Rabs_le_between x a : Rabs x <= a -> - a <= x <= a.
Proof.
  unfold Rabs. destruct (Rcase_abs x) as [Hneg | Hpos]; lra.
Qed.

Lemma Rabs_sin_le y : Rabs (sin y) <= Rabs y.
Proof.
  assert (Hpos : forall z, 0 < z -> Rabs (sin z) <= z).
  { intros z Hz. pose proof (sin_lt_x z Hz) as Hlt.
    pose proof (SIN_bound z) as [Hlo _].
    apply Rabs_le. split; [| lra].
    destruct (Rle_dec 1 z) as [H1 | H1]; [lra |].
    assert (0 < sin z); [| lra].
    apply sin_gt_0; [exact Hz |]. pose proof PI2_1. lra. }
  destruct (Rtotal_order y 0) as [Hneg | [-> | Hp]].
  - rewrite <- (Ropp_involutive y) at 1. rewrite sin_neg, Rabs_Ropp.
    rewrite (Rabs_left y Hneg). apply Hpos. lra.
  - rewrite sin_0, Rabs_R0. lra.
  - rewrite (Rabs_right y) by lra. apply Hpos, Hp.
Qed.

Lemma sin_lipschitz a b : Rabs (sin a - sin b) <= Rabs (a - b).
Proof.
  rewrite form4.
  pose proof (COS_bound ((a + b) / 2)) as [Hc1 Hc2].
  pose proof (Rabs_sin_le ((a - b) / 2)) as Hs.
  assert (Hc : Rabs (cos ((a + b) / 2)) <= 1) by (apply Rabs_le; lra).
  replace (Rabs ((a - b) / 2)) with (Rabs (a - b) / 2) in Hs.
  2:{ unfold Rdiv. rewrite Rabs_mult, (Rabs_right (/ 2)); lra. }
  rewrite !Rabs_mult, (Rabs_right 2) by lra.
  pose proof (Rabs_pos (cos ((a + b) / 2))).
  pose proof (Rabs_pos (sin ((a - b) / 2))).
  nra.
Qed.






(** ** Accuracy of the solver on moderate eccentricities *)

Lemma cos_lipschitz a b : Rabs (cos a - cos b) <= Rabs (a - b).
Proof.
  rewrite form2.
  pose proof (SIN_bound ((a + b) / 2)) as [Hs1 Hs2].
  pose proof (Rabs_sin_le ((a - b) / 2)) as Hs.
  assert (Hc : Rabs (sin ((a + b) / 2)) <= 1) by (apply Rabs_le; lra).
  replace (Rabs ((a - b) / 2)) with (Rabs (a - b) / 2) in Hs.
  2:{ unfold Rdiv. rewrite Rabs_mult, (Rabs_right (/ 2)); lra. }
  rewrite !Rabs_mult, (Rabs_left (-2)) by lra.
  pose proof (Rabs_pos (sin ((a + b) / 2))).
  pose proof (Rabs_pos (sin ((a - b) / 2))).
  nra.
Qed.

Lemma sin_remainder_derivable x s t :
  derivable_pt_lim (sin_remainder x s) t (cos (x + t) - cos x + s * t).
Proof.
  unfold sin_remainder.
  replace (cos (x + t) - cos x + s * t)
    with (cos (x + t) * (0 + 1) - 0 - cos x * 1
          + s / 2 * (1 * id t + id t * 1)) by (unfold id; lra).
  apply derivable_pt_lim_plus.
  - apply derivable_pt_lim_minus.
    + apply derivable_pt_lim_minus.
      * apply derivable_pt_lim_comp.
        -- apply derivable_pt_lim_plus;
             [apply derivable_pt_lim_const | apply derivable_pt_lim_id].
        -- apply derivable_pt_lim_sin.
      * apply derivable_pt_lim_const.
    + apply derivable_pt_lim_scal, derivable_pt_lim_id.
  - apply derivable_pt_lim_scal.
    apply derivable_pt_lim_mult; apply derivable_pt_lim_id.
Qed.

Lemma sin_remainder_eq x s t :
  sin_remainder x s t = sin (x + t) - sin x - t * cos x + s * (t * t) / 2.
Proof.
  unfold sin_remainder, plus_fct, minus_fct, mult_fct, mult_real_fct, comp,
    fct_cte, id. lra.
Qed.

(** Second-order bound: [|sin (x + h) - sin x - h * cos x| <= h^2 / 2]. *)
Lemma sin_second_order x h :
  Rabs (sin (x + h) - sin x - h * cos x) <= h * h / 2.
Proof.
  assert (Hslope : forall c, - Rabs c <= cos (x + c) - cos x <= Rabs c).
  { intros c. apply Rabs_le_between.
    pose proof (cos_lipschitz (x + c) x) as Hl.
    replace (x + c - x) with c in Hl by lra. exact Hl. }
  assert (H0 : forall s, sin_remainder x s 0 = 0).
  { intros s. rewrite sin_remainder_eq. rewrite Rplus_0_r. lra. }
  apply Rabs_le.
  destruct (Rtotal_order h 0) as [Hneg | [-> | Hpos]].
  - destruct (MVT_cor2 (sin_remainder x 1)
                (fun t => cos (x + t) - cos x + 1 * t) h 0 Hneg
                (fun c _ => sin_remainder_derivable x 1 c))
      as (c1 & Hc1 & Hr1).
    destruct (MVT_cor2 (sin_remainder x (-1))
                (fun t => cos (x + t) - cos x + -1 * t) h 0 Hneg
                (fun c _ => sin_remainder_derivable x (-1) c))
      as (c2 & Hc2 & Hr2).
    rewrite H0, sin_remainder_eq in Hc1, Hc2.
    pose proof (Hslope c1) as Hs1. pose proof (Hslope c2) as Hs2.
    rewrite (Rabs_left c1) in Hs1 by lra.
    rewrite (Rabs_left c2) in Hs2 by lra.
    split; nra.
  - rewrite Rplus_0_r. lra.
  - destruct (MVT_cor2 (sin_remainder x 1)
                (fun t => cos (x + t) - cos x + 1 * t) 0 h Hpos
                (fun c _ => sin_remainder_derivable x 1 c))
      as (c1 & Hc1 & Hr1).
    destruct (MVT_cor2 (sin_remainder x (-1))
                (fun t => cos (x + t) - cos x + -1 * t) 0 h Hpos
                (fun c _ => sin_remainder_derivable x (-1) c))
      as (c2 & Hc2 & Hr2).
    rewrite H0, sin_remainder_eq in Hc1, Hc2.
    pose proof (Hslope c1) as Hs1. pose proof (Hslope c2) as Hs2.
    rewrite (Rabs_right c1) in Hs1 by lra.
    rewrite (Rabs_right c2) in Hs2 by lra.
    split; nra.
Qed.

(** One update squares the residual, up to the factor [e / (2 (1-e)^2)]. *)
Lemma residual_quadratic m ev x :
  elliptic ev ->
  Rabs (residual m ev (real_update m ev x))
  <= ev / (2 * ((1 - ev) * (1 - ev))) * (residual m ev x * residual m ev x).
Proof.
  intros He. destruct (elliptic_divisor ev x He) as [Hd Hpos].
  destruct He as [H0 H1].
  set (d := 1 - ev * cos x) in *.
  set (f := residual m ev x).
  set (h := - (f / d)).
  assert (Hx' : real_update m ev x = x + h).
  { unfold h, f, d, real_update, residual. lra. }
  assert (Heq : residual m ev (real_update m ev x)
                = - ev * (sin (x + h) - sin x - h * cos x)).
  { rewrite Hx'. unfold residual.
    assert (Hf : x - ev * sin x - m = - h * (1 - ev * cos x)).
    { unfold h, f, d, residual. field. fold d. lra. }
    lra. }
  rewrite Heq, Rabs_mult, Rabs_Ropp, (Rabs_right ev) by lra.
  pose proof (sin_second_order x h) as Hso.
  assert (Hh : h * h <= f * f / ((1 - ev) * (1 - ev))).
  { unfold h. replace (- (f / d) * - (f / d)) with (f * f / (d * d))
      by (field; lra).
    unfold Rdiv. apply Rmult_le_compat_l; [nra |].
    apply Rinv_le_contravar; nra. }
  replace (ev / (2 * ((1 - ev) * (1 - ev))) * (f * f))
    with (ev * ((f * f / ((1 - ev) * (1 - ev))) / 2)) by (field; lra).
  apply Rmult_le_compat_l; [lra |]. lra.
Qed.

Lemma residual_initial m ev : 0 <= ev -> Rabs (residual m ev m) <= ev.
Proof.
  intros H0. unfold residual.
  replace (m - ev * sin m - m) with (- (ev * sin m)) by lra.
  rewrite Rabs_Ropp, Rabs_mult, (Rabs_right ev) by lra.
  pose proof (SIN_bound m) as [Hs1 Hs2].
  assert (Rabs (sin m) <= 1) by (apply Rabs_le; lra).
  pose proof (Rabs_pos (sin m)). nra.
Qed.

(** For [e <= 1/2] the residual is squared by every iteration. *)
Lemma residual_doubly_exponential m ev (k : nat) :
  0 <= ev <= 1 / 2 ->
  Rabs (residual m ev (real_newton_seq m ev k)) <= (1 / 2) ^ (2 ^ k).
Proof.
  intros [H0 H1]. induction k as [| k IH].
  - cbn [real_newton_seq]. pose proof (residual_initial m ev H0).
    simpl. lra.
  - cbn [real_newton_seq].
    assert (He : elliptic ev) by (unfold elliptic; lra).
    pose proof (residual_quadratic m ev (real_newton_seq m ev k) He) as Hq.
    set (r := residual m ev (real_newton_seq m ev k)) in *.
    assert (Hc : ev / (2 * ((1 - ev) * (1 - ev))) <= 1).
    { apply (Rmult_le_reg_r (2 * ((1 - ev) * (1 - ev)))); [nra |].
      replace (ev / (2 * ((1 - ev) * (1 - ev))) * (2 * ((1 - ev) * (1 - ev))))
        with ev by (field; lra).
      nra. }
    assert (Hc0 : 0 <= ev / (2 * ((1 - ev) * (1 - ev)))).
    { apply Rmult_le_pos; [lra |]. left. apply Rinv_0_lt_compat. nra. }
    assert (Hrr : r * r <= (1 / 2) ^ (2 ^ S k)).
    { replace (2 ^ S k)%nat with (2 ^ k + 2 ^ k)%nat by (simpl; lia).
      rewrite pow_add.
      replace (r * r) with (Rabs r * Rabs r).
      2:{ rewrite <- Rabs_mult. apply Rabs_right. nra. }
      pose proof (Rabs_pos r). nra. }
    set (c := ev / (2 * ((1 - ev) * (1 - ev)))) in *.
    set (P := (1 / 2) ^ (2 ^ S k)) in *.
    assert (Hr0 : 0 <= r * r) by nra.
    apply (Rle_trans _ (c * (r * r))); [exact Hq |].
    apply (Rle_trans _ (1 * (r * r))); [| lra].
    apply Rmult_le_compat_r; assumption.
Qed.

Lemma half_pow_le (j k : nat) : (j <= k)%nat -> (1 / 2) ^ k <= (1 / 2) ^ j.
Proof.
  intros Hjk. replace k with (j + (k - j))%nat by lia. rewrite pow_add.
  assert (0 <= (1 / 2) ^ j) by (apply pow_le; lra).
  assert ((1 / 2) ^ (k - j) <= 1).
  { apply (Rle_trans _ (1 ^ (k - j))); [apply pow_incr; lra |].
    rewrite pow1. lra. }
  nra.
Qed.

Lemma two_pow_ge (k : nat) : (6 <= k)%nat -> (64 <= 2 ^ k)%nat.
Proof.
  intros Hk. replace k with (6 + (k - 6))%nat by lia.
  rewrite Nat.pow_add_r. change (2 ^ 6)%nat with 64%nat.
  assert (1 <= 2 ^ (k - 6))%nat by (apply Nat.neq_0_lt_0, Nat.pow_nonzero; lia).
  nia.
Qed.

Lemma half_pow_64 : (1 / 2) ^ 64 < 1 / 1000000.
Proof.
  replace ((1 / 2) ^ 64) with ((((1 / 2) ^ 8) ^ 8)) by (rewrite <- pow_mult; reflexivity).
  replace ((1 / 2) ^ 8) with (1 / 256) by (simpl; lra).
  simpl. lra.
Qed.

(** Two numbers with close Kepler images are close. *)
Lemma kepler_separation ev x y :
  elliptic ev ->
  (1 - ev) * Rabs (x - y) <= Rabs ((x - ev * sin x) - (y - ev * sin y)).
Proof.
  intros [H0 H1].
  pose proof (sin_lipschitz x y) as Hl.
  replace (x - ev * sin x - (y - ev * sin y))
    with ((x - y) - ev * (sin x - sin y)) by lra.
  pose proof (Rabs_triang_inv (x - y) (ev * (sin x - sin y))) as Ht.
  rewrite (Rabs_mult ev), (Rabs_right ev) in Ht by lra.
  pose proof (Rabs_pos (sin x - sin y)). nra.
Qed.

(** ** Monotonicity up to the accuracy reached *)




(** ** Symmetries and edge cases of the solver *)










(** *** A non-finite eccentricity *)

Lemma loop_body_eccentricity_not_finite M e E :
  is_finite e = false -> loop_body M e E = NaN.
Proof.
  intros He. destruct E as [x | | |];
    [| apply loop_body_not_finite; reflexivity ..].
  unfold loop_body, divisor.
  destruct e as [ev | | |]; try discriminate He; cbn;
    destruct (Req_dec_T (sin x) 0); destruct (Req_dec_T (cos x) 0);
    destruct (nonneg (sin x)); destruct (nonneg (cos x));
    destruct M; reflexivity.
Qed.

(** X4. An eccentricity that is [NaN], [Infinity] or [-Infinity] turns
    the result into [NaN] as soon as the body runs once, whatever [M]. *)
Theorem keplersLaw_eccentricity_not_finite
  (M e : number) (iterations : option Z) :
  is_finite e = false ->
  (1 <= iteration_count iterations)%nat ->
  keplersLaw M e iterations = NaN.
Proof.
  intros He Hk. rewrite keplersLaw_count.
  destruct (iteration_count iterations) as [| k]; [lia |].
  change (newton_seq M e (S k)) with (loop_body M e (newton_seq M e k)).
  apply loop_body_eccentricity_not_finite, He.
Qed.

Lemma keplersLaw_eccentricity_not_finite_witness :
  keplersLaw (Finite 1) PosInfinity None = NaN.
Proof.
  apply (keplersLaw_eccentricity_not_finite (Finite 1) PosInfinity None).
  - reflexivity.
  - cbn. lia.
Defined.

(** *** Exact roots *)



(** *** Convergence *)

(** X6. For [0 <= e <= 1/2], [|M| <= 1000] and six or more iterations
    (the default included) the result [E] satisfies
    [|E - e*sin(E) - M| < 1e-6].  In exact arithmetic the residual is at
    most [2^-64] and the bound on [M] is not needed; both leave room for
    the rounding of the source's double arithmetic. *)
Theorem keplersLaw_residual_small (m ev : R) (iterations : option Z) :
  0 <= ev <= 1 / 2 ->
  Rabs m <= 1000 ->
  (6 <= iteration_count iterations)%nat ->
  exists x : R,
    keplersLaw (Finite m) (Finite ev) iterations = Finite x
    /\ Rabs (x - ev * sin x - m) < 1 / 1000000.
Proof.
  intros He _ Hk.
  exists (real_newton_seq m ev (iteration_count iterations)). split.
  - rewrite keplersLaw_count. apply newton_seq_real. unfold elliptic. lra.
  - pose proof (residual_doubly_exponential m ev
                  (iteration_count iterations) He) as Hr.
    unfold residual in Hr.
    pose proof (half_pow_le 64 _ (two_pow_ge _ Hk)) as Hp.
    pose proof half_pow_64. lra.
Qed.

Lemma keplersLaw_residual_small_witness :
  exists x : R,
    keplersLaw (Finite 1) (Finite (1 / 2)) None = Finite x
    /\ Rabs (x - 1 / 2 * sin x - 1) < 1 / 1000000.
Proof.
  apply (keplersLaw_residual_small 1 (1 / 2) None).
  - lra.
  - rewrite Rabs_right; lra.
  - cbn. lia.
Defined.

(** X7. For [0 <= e <= 1/2], [|M| <= 1000] and six or more iterations
    the result is within [2e-6] of every solution [Estar] of Kepler's
    equation [Estar - e*sin(Estar) = M].  The margin and the bound on [M]
    leave room for the rounding of the source's double arithmetic. *)
Theorem keplersLaw_near_root (m ev Estar : R) (iterations : option Z) :
  0 <= ev <= 1 / 2 ->
  Rabs m <= 1000 ->
  (6 <= iteration_count iterations)%nat ->
  Estar - ev * sin Estar = m ->
  exists x : R,
    keplersLaw (Finite m) (Finite ev) iterations = Finite x
    /\ Rabs (x - Estar) < 2 / 1000000.
Proof.
  intros He _ Hk Hroot.
  assert (Hel : elliptic ev) by (unfold elliptic; lra).
  exists (real_newton_seq m ev (iteration_count iterations)). split.
  - rewrite keplersLaw_count. apply newton_seq_real, Hel.
  - set (x := real_newton_seq m ev (iteration_count iterations)).
    pose proof (residual_doubly_exponential m ev
                  (iteration_count iterations) He) as Hr.
    fold x in Hr. unfold residual in Hr.
    pose proof (half_pow_le 64 _ (two_pow_ge _ Hk)) as Hp.
    pose proof half_pow_64 as H64.
    pose proof (kepler_separation ev x Estar Hel) as Hsep.
    rewrite Hroot in Hsep.
    pose proof (Rabs_pos (x - Estar)). nra.
Qed.

Lemma keplersLaw_near_root_witness :
  exists x : R,
    keplersLaw (Finite 0) (Finite (1 / 2)) None = Finite x
    /\ Rabs (x - 0) < 2 / 1000000.
Proof.
  apply (keplersLaw_near_root 0 (1 / 2) 0 None).
  - lra.
  - rewrite Rabs_R0. lra.
  - cbn. lia.
  - rewrite sin_0. lra.
Defined.

(** ** The planets of the scene *)

Lemma Planet_frame_position d s t mesh :
  position (Planet_frame (Finite d) (Finite s) (Finite t) mesh)
  = Vector3.mk (Finite (cos (t * s) * d)) (Finite 0)
      (Finite (sin (t * s) * d)).
Proof. reflexivity. Qed.

Lemma Planet_over_ring d s t mesh :
  2 / 100 <= d ->
  over_ring (Orbit_ringGeometry (Finite d))
    (position (Planet_frame (Finite d) (Finite s) (Finite t) mesh)).
Proof.
  intros Hd. rewrite Planet_frame_position. cbn.
  pose proof (sin2_cos2 (t * s)) as H. unfold Rsqr in H.
  set (c := cos (t * s)) in *. set (sn := sin (t * s)) in *.
  assert (Hc : c * d * (c * d) + sn * d * (sn * d) = d * d) by nra.
  rewrite Hc. repeat split; nra.
Qed.

(** X10. The orbit lines of the scene are the planets' distances, in
    order, and every planet of the scene is over its own orbit line at
    every clock time. *)
Theorem SolarSystemScene_planets_on_orbits :
  SolarSystemScene_orbits = map distance SolarSystemScene_planets
  /\ forall p : PlanetProps,
       In p SolarSystemScene_planets ->
       In (distance p) SolarSystemScene_orbits
       /\ forall (t : R) (mesh : Mesh),
            over_ring (Orbit_ringGeometry (distance p))
              (position (Planet_frame (distance p) (speed p) (Finite t) mesh)).
Proof.
  split; [reflexivity |].
  intros p Hp. split.
  - change SolarSystemScene_orbits
      with (map distance SolarSystemScene_planets).
    apply in_map, Hp.
  - intros t mesh.
    repeat (destruct Hp as [<- | Hp]; [apply Planet_over_ring; lra |]).
    destruct Hp.
Qed.

Lemma circle_points_apart d1 d2 a b :
  0 <= d1 * d2 ->
  (d1 - d2) * (d1 - d2)
  <= (cos a * d1 - cos b * d2) * (cos a * d1 - cos b * d2)
     + (sin a * d1 - sin b * d2) * (sin a * d1 - sin b * d2).
Proof.
  intros Hd.
  pose proof (sin2_cos2 a) as Ha. pose proof (sin2_cos2 b) as Hb.
  unfold Rsqr in Ha, Hb.
  pose proof (COS_bound (a - b)) as [_ Hc]. rewrite cos_minus in Hc.
  set (ca := cos a) in *. set (sa := sin a) in *.
  set (cb := cos b) in *. set (sb := sin b) in *.
  replace ((ca * d1 - cb * d2) * (ca * d1 - cb * d2)
           + (sa * d1 - sb * d2) * (sa * d1 - sb * d2))
    with ((ca * ca + sa * sa) * (d1 * d1) + (cb * cb + sb * sb) * (d2 * d2)
          - 2 * (d1 * d2) * (ca * cb + sa * sb)) by ring.
  replace (ca * ca + sa * sa) with 1 by lra.
  replace (cb * cb + sb * sb) with 1 by lra.
  nra.
Qed.

Lemma Planets_apart d1 s1 r1 d2 s2 r2 t m1 m2 :
  0 <= r1 -> 0 <= r2 -> 0 <= d1 * d2 ->
  (r1 + r2) * (r1 + r2) < (d1 - d2) * (d1 - d2) ->
  spheres_apart
    (position (Planet_frame (Finite d1) (Finite s1) (Finite t) m1)) (Finite r1)
    (position (Planet_frame (Finite d2) (Finite s2) (Finite t) m2)) (Finite r2).
Proof.
  intros Hr1 Hr2 Hd Hgap. rewrite !Planet_frame_position. cbn.
  split; [exact Hr1 | split; [exact Hr2 |]].
  pose proof (circle_points_apart d1 d2 (t * s1) (t * s2) Hd). nra.
Qed.

(** X11. At every clock time the spheres of two different planets of
    the scene have no point in common, and no planet's sphere touches the
    Sun's. *)
Theorem SolarSystemScene_no_collision (p q : PlanetProps) (t : R)
  (m1 m2 : Mesh) :
  In p SolarSystemScene_planets ->
  In q SolarSystemScene_planets ->
  p <> q ->
  spheres_apart
    (position (Planet_frame (distance p) (speed p) (Finite t) m1)) (radius p)
    (position (Planet_frame (distance q) (speed q) (Finite t) m2)) (radius q)
  /\ spheres_apart
       (position (Planet_frame (distance p) (speed p) (Finite t) m1))
       (radius p) origin Sun_radius.
Proof.
  intros Hp Hq Hpq. split.
  - repeat (destruct Hp as [<- | Hp]);
      try destruct Hp;
      repeat (destruct Hq as [<- | Hq]);
      try destruct Hq;
      try (exfalso; apply Hpq; reflexivity);
      apply Planets_apart; lra.
  - repeat (destruct Hp as [<- | Hp]); try destruct Hp;
      cbn [distance speed radius Mercury Venus Earth Mars Jupiter Saturn
             Uranus Neptune];
      rewrite Planet_frame_position; cbn;
      (split; [lra | split; [lra |]]);
      match goal with
      | |- context [cos ?a] =>
          pose proof (sin2_cos2 a) as H; unfold Rsqr in H; nra
      end.
Qed.

Lemma SolarSystemScene_no_collision_witness :
  spheres_apart
    (position
       (Planet_frame (distance Mercury) (speed Mercury) (Finite 7) new_Mesh))
    (radius Mercury)
    (position
       (Planet_frame (distance Venus) (speed Venus) (Finite 7) new_Mesh))
    (radius Venus)
  /\ spheres_apart
       (position
          (Planet_frame (distance Mercury) (speed Mercury) (Finite 7)
             new_Mesh))
       (radius Mercury) origin Sun_radius.
Proof.
  apply (SolarSystemScene_no_collision Mercury Venus 7 new_Mesh new_Mesh).
  - left. reflexivity.
  - right. left. reflexivity.
  - unfold Mercury, Venus. discriminate.
Defined.

(** ** Frames *)

Lemma rotate_y_iter delta (n : nat) mesh r0 :
  0 <= delta ->
  Euler.y (rotation mesh) = Finite r0 ->
  exists r : R,
    Nat.iter n (rotate_y (Finite delta)) mesh
    = {| position := position mesh;
         rotation := Euler.mk (Euler.x (rotation mesh)) (Finite r)
                       (Euler.z (rotation mesh)) |}
    /\ r0 <= r.
Proof.
  intros Hd Hr. induction n as [| n (r & IH & Hle)].
  - exists r0. split; [| lra].
    cbn [Nat.iter nat_rect]. destruct mesh as [p [rx ry rz]]. cbn in *.
    subst ry. reflexivity.
  - exists (r + delta). split; [| lra].
    cbn [Nat.iter nat_rect]. fold (Nat.iter n (rotate_y (Finite delta)) mesh).
    rewrite IH. reflexivity.
Qed.

(** X12. Frames of the Sun never move it and leave its rotation about
    the X and Z axes alone; they change only [rotation.y], which stays a
    finite number and never decreases. *)
Theorem Sun_frames (n : nat) (mesh : Mesh) (r0 : R) :
  Euler.y (rotation mesh) = Finite r0 ->
  exists r : R,
    Nat.iter n Sun_frame mesh
    = {| position := position mesh;
         rotation := Euler.mk (Euler.x (rotation mesh)) (Finite r)
                       (Euler.z (rotation mesh)) |}
    /\ r0 <= r.
Proof. apply rotate_y_iter. lra. Qed.

Lemma Sun_frames_witness :
  exists r : R,
    Nat.iter 3 Sun_frame new_Mesh
    = {| position := position new_Mesh;
         rotation := Euler.mk (Euler.x (rotation new_Mesh)) (Finite r)
                       (Euler.z (rotation new_Mesh)) |}
    /\ 0 <= r.
Proof. apply (Sun_frames 3 new_Mesh 0). reflexivity. Defined.

Lemma Planet_frames_snoc d s times t mesh :
  Planet_frames d s (times ++ [t]) mesh
  = Planet_frame d s t (Planet_frames d s times mesh).
Proof. unfold Planet_frames. rewrite fold_left_app. reflexivity. Qed.

Lemma Planet_frames_rotation_xz d s times :
  forall mesh,
    Euler.x (rotation (Planet_frames d s times mesh)) = Euler.x (rotation mesh)
    /\ Euler.z (rotation (Planet_frames d s times mesh))
       = Euler.z (rotation mesh).
Proof.
  induction times as [| t times IH]; intros mesh; [split; reflexivity |].
  change (Planet_frames d s (t :: times) mesh)
    with (Planet_frames d s times (Planet_frame d s t mesh)).
  destruct (IH (Planet_frame d s t mesh)) as [Hx Hz].
  rewrite Hx, Hz. split; reflexivity.
Qed.

(** X13. After any run of frames a planet's position is the one its last
    frame computes from the last clock time alone: earlier frames leave
    no trace in it.  The rotation about the X and Z axes is never
    changed. *)
Theorem Planet_frames_state (d s t : number) (times : list number)
  (mesh : Mesh) :
  position (Planet_frames d s (times ++ [t]) mesh)
  = position (Planet_frame d s t mesh)
  /\ Euler.x (rotation (Planet_frames d s (times ++ [t]) mesh))
     = Euler.x (rotation mesh)
  /\ Euler.z (rotation (Planet_frames d s (times ++ [t]) mesh))
     = Euler.z (rotation mesh).
Proof.
  split.
  - rewrite Planet_frames_snoc. reflexivity.
  - apply Planet_frames_rotation_xz.
Qed.
